(** * apptrace: the snapshot recorder of [apptrace/instruments.py]

    A shallow embedding of [JSONSerializable], [RecordEntry], [Record] and
    [Recorder], and the properties of serialization, index allocation,
    write-once storage and paged retrieval that follow from the code.

    Conventions of the embedding.
    - Python integers ([int] and [long]) are unbounded: [Z].
    - Python text ([str] and [unicode]) is one type, [string]; the
      distinction Python 2 makes between the two is not modelled.
    - A [dict] with string keys is a [gmap string _]: no duplicate keys, no
      order, equality by content.
    - Exceptions are values of [exn], returned through [result]. *)

From stdpp Require Import gmap strings list fin_maps pretty sorting.
From Stdlib Require Import ZArith Lia OrdersEx.

Set Default Proof Using "Type".
Local Set Warnings "-register-all".
Local Open Scope Z_scope.

(** ** Plain Python data

    The data that [simplejson] reads and writes, and that [eval (repr x)]
    reproduces unchanged: [None], booleans, integers, text, lists and
    string-keyed dictionaries. *)
Inductive value :=
  | VNone
  | VBool (b : bool)
  | VInt (n : Z)
  | VStr (s : string)
  | VList (l : list value)
  | VDict (d : gmap string value).

(** ** Exceptions *)
Inductive exn :=
  | ValueError  (** [simplejson.loads] rejects the text. *)
  | TypeError   (** A call or an operation on a value of the wrong shape: a
                    missing or unexpected keyword argument, iterating or
                    indexing a non-mapping, arithmetic on text.  Rebuilding an
                    object from parsed data can also stop on an [IndexError]
                    or a [UnicodeEncodeError]; which one surfaces first depends
                    on the iteration order of a [dict], so these are counted
                    in this class. *)
  | KeyError.   (** Subscript of a [dict] with an absent key. *)

Inductive result (A : Type) :=
  | Ok (a : A)
  | Raise (e : exn).
Arguments Ok {A} a.
Arguments Raise {A} e.

#[global] Instance result_ret : MRet result := λ A a, Ok a.
#[global] Instance result_bind : MBind result := λ A B f r,
  match r with Ok a => f a | Raise e => Raise e end.
#[global] Instance result_fmap : FMap result := λ A B f r,
  match r with Ok a => Ok (f a) | Raise e => Raise e end.

Definition is_Ok {A} (r : result A) : Prop := ∃ a, r = Ok a.

(** [d[key]]: subscript of a dictionary. *)
Definition getitem {A} (d : gmap string A) (key : string) : result A :=
  match d !! key with
  | Some a => Ok a
  | None => Raise KeyError
  end.

(** ** The serializable classes *)

(** An instance of [RecordEntry]: the four attributes set by [__init__].
    Python does not type them; each holds plain data. *)
Record RecordEntry := mkRecordEntry {
  module_name : value;
  name : value;
  obj_type : value;
  dominated_size : value
}.

(** An element of the list held by a [Record]: an instance of [RecordEntry]
    or anything else ([Record.get_value] tests [isinstance]). *)
Inductive item :=
  | IEntry (e : RecordEntry)
  | IPlain (v : value).

(** The [entries] attribute of a [Record]: a Python list, or, when
    [make_value] is handed something that is not a list, that value as it
    is. *)
Inductive attr :=
  | AList (l : list item)
  | APlain (v : value).

(** An instance of [Record]. *)
Record record := mkRecord { entries : attr }.

(** [eval(repr(e))] for a [RecordEntry]: [__repr__] collects the attributes
    stored under the [_k_] prefix, strips the prefix and applies the base
    class's [get_value], the identity. *)
Definition RecordEntry_repr (e : RecordEntry) : value :=
  VDict (<["module_name" := module_name e]>
        (<["name" := name e]>
        (<["obj_type" := obj_type e]>
        (<["dominated_size" := dominated_size e]> ∅)))).

(** [Record.get_value]. *)
Definition Record_get_value (a : attr) : value :=
  match a with
  | AList l =>
      VList ((λ it, match it with
                    | IEntry e => RecordEntry_repr e
                    | IPlain v => v
                    end) <$> l)
  | APlain v => v
  end.

(** [eval(repr(r))] for a [Record]. *)
Definition Record_repr (r : record) : value :=
  VDict (<["entries" := Record_get_value (entries r)]> ∅).

(** The parameter names of [RecordEntry.__init__] and [Record.__init__]. *)
Definition RecordEntry_params : gset string :=
  {[ "module_name"; "name"; "obj_type"; "dominated_size" ]}.
Definition Record_params : gset string := {[ "entries" ]}.

(** [RecordEntry( **kw )]: every parameter is required and there is no
    [**kwargs] catch-all, so the call succeeds exactly when the keys of [kw]
    are the four parameter names. *)
Definition RecordEntry_new (kw : gmap string value) : result RecordEntry :=
  if decide (dom kw = RecordEntry_params) then
    m ← getitem kw "module_name";
    n ← getitem kw "name";
    t ← getitem kw "obj_type";
    s ← getitem kw "dominated_size";
    Ok (mkRecordEntry m n t s)
  else Raise TypeError.

(** [Record( **kw )]. *)
Definition Record_new (kw : gmap string attr) : result record :=
  if decide (dom kw = Record_params) then
    e ← getitem kw "entries";
    Ok (mkRecord e)
  else Raise TypeError.

(** Text is held as UTF-8 bytes, so a character outside ASCII shows as
    bytes of code 128 and above; [str] of a text with such a character
    raises. *)
Definition is_ascii (s : string) : bool :=
  forallb (λ c, (Ascii.N_of_ascii c <? 128)%N) (String.list_ascii_of_string s).

(** [l[n]] on a list: a negative index counts from the end, an index out
    of range raises. *)
Definition list_getitem (l : list value) (n : Z) : result value :=
  let i := if n <? 0 then n + Z.of_nat (length l) else n in
  if i <? 0 then Raise TypeError
  else match l !! Z.to_nat i with
       | Some v => Ok v
       | None => Raise TypeError
       end.

(** [[(str(k), args[k]) for k in args]], the comprehension of [make_args]
    and of [FromJSON].  Iterating a dictionary gives its keys.  Iterating a
    list gives its elements, and only integers and booleans are indices of a
    list.  The empty text iterates zero times; the characters of any other
    text are not indices of it.  [None], booleans and integers are not
    iterable. *)
Definition keyed_items (args : value) : result (list (string * value)) :=
  match args with
  | VDict d =>
      mapM (λ kv : string * value,
              if is_ascii kv.1 then Ok kv else Raise TypeError)
           (map_to_list d)
  | VList l =>
      mapM (λ k, match k with
                 | VInt n => v ← list_getitem l n; Ok (pretty n, v)
                 | VBool b =>
                     v ← list_getitem l (if b then 1 else 0);
                     Ok (if b then "True" else "False", v)
                 | _ => Raise TypeError
                 end) l
  | VStr "" => Ok []
  | _ => Raise TypeError
  end.

(** [dict(pairs)]: of two pairs with the same key the later one stays. *)
Definition dict {A} (pairs : list (string * A)) : gmap string A :=
  list_to_map (reverse pairs).

(** [JSONSerializable.make_args]. *)
Definition make_args (args : value) : result (gmap string value) :=
  dict <$> keyed_items args.

(** [Record.make_value]. *)
Definition Record_make_value (v : value) : result attr :=
  match v with
  | VList l =>
      AList <$> mapM (λ it, kw ← make_args it;
                            e ← RecordEntry_new kw;
                            Ok (IEntry e)) l
  | _ => Ok (APlain v)
  end.

(** ** The recorder and its environment *)
Section Recorder.

(** *** simplejson

    [simplejson] is a library outside the repository.  The program only
    hands its texts on, so the text type is left open; [loads] gives [None]
    where the library raises its [ValueError]. *)
Context {text : Type}.
Variable dumps : value → text.
Variable loads : text → option value.

(** The truth value of a text: [text_nonempty t] is [bool(t)]. *)
Variable text_nonempty : text → bool.

(** [JSONSerializable.EncodeJSON] on a [Record]. *)
Definition EncodeJSON (r : record) : text := dumps (Record_repr r).

(** [Record.FromJSON].  The comprehension runs over the keys of the parsed
    document, applying [make_value] to every value, and the resulting
    dictionary is passed as keyword arguments to the constructor. *)
Definition FromJSON (json : text) : result record :=
  match loads json with
  | None => Raise ValueError
  | Some data =>
      items ← keyed_items data;
      kw ← mapM (λ kv, a ← Record_make_value kv.2; Ok (kv.1, a)) items;
      Record_new (dict kw)
  end.

(** *** memcache

    Modelled from the spec: the App Engine [memcache] client is not part of
    the repository.  The cache is a finite map from keys to stored Python
    values, with the four primitives of the storage backend contract:
    [add] sets a key only if it is absent and says whether it did, [incr]
    adds one to an integer and fails on an absent key, [get] reads one key
    and [get_multi] returns the mapping of the present keys among those
    asked for, keyed without the prefix.  On a key that holds text, [incr]
    fails as on an absent key.  Nothing is evicted and every primitive runs
    atomically.  Each call is appended to a log, so that
    which reads and writes a function performs can be stated. *)
Inductive cval :=
  | CInt (n : Z)
  | CText (t : text).

Inductive call :=
  | CallAdd (key : string) (v : cval)
  | CallIncr (key : string)
  | CallGet (key : string)
  | CallGetMulti (keys : list string) (key_prefix : string).

Record memcache := mkMemcache {
  store : gmap string cval;
  calls : list call
}.

(** Computations on the cache. *)
Definition M (A : Type) : Type := memcache → A * memcache.

#[local] Instance M_ret : MRet M := λ A a m, (a, m).
#[local] Instance M_bind : MBind M := λ A B f c m,
  let r := c m in f r.1 r.2.

Definition logged (c : call) (m : memcache) : memcache :=
  mkMemcache (store m) (calls m ++ [c]).

Definition memcache_add (key : string) (v : cval) : M bool := λ m,
  match store m !! key with
  | Some _ => (false, logged (CallAdd key v) m)
  | None =>
      (true, logged (CallAdd key v) (mkMemcache (<[key := v]> (store m)) (calls m)))
  end.

Definition memcache_incr (key : string) : M (option Z) := λ m,
  match store m !! key with
  | Some (CInt n) =>
      (Some (n + 1),
       logged (CallIncr key) (mkMemcache (<[key := CInt (n + 1)]> (store m)) (calls m)))
  | _ => (None, logged (CallIncr key) m)
  end.

Definition memcache_get (key : string) : M (option cval) := λ m,
  (store m !! key, logged (CallGet key) m).

Definition memcache_get_multi (keys : list string) (key_prefix : string)
    : M (gmap string cval) := λ m,
  (foldr (λ key found,
            match store m !! (key_prefix +:+ key) with
            | Some v => <[key := v]> found
            | None => found
            end) ∅ keys,
   logged (CallGetMulti keys key_prefix) m).

(** *** The interpreter state and the heap inspector

    [sys.modules] maps the names of the loaded modules to their
    [__dict__], whose keys are text; of an object only its class name
    ([obj.__class__.__name__]) and the dominated size that Heapy reports
    ([hp.iso(obj).domisize]) are read, and every object is taken to have
    both.  [gc.collect()] has no part in what is recorded here. *)
Context {obj : Type}.
Variable class_name : obj → string.
Variable domisize : obj → Z.
Variable sys_modules : gmap string (gmap string obj).

(** *** The configuration

    [middleware.Config] is not among the sources; its four members that
    [Recorder] reads are parameters. *)
Variable get_modules : list string.
Variable IGNORE_NAMES : list string.
Variable INDEX_KEY : string.
Variable RECORD_PREFIX : string.

(** [sorted] on names: ascending in the order of [str], which compares
    character codes from the left. *)
Definition sorted (l : list string) : list string := merge_sort String.le l.

(** [xrange(start, stop)]. *)
Definition xrange (start stop : Z) : list Z := seqZ start (stop - start).

(** [str(index)], where [index] is [None] if [incr] failed. *)
Definition str (index : option Z) : string :=
  match index with
  | Some n => pretty n
  | None => "None"
  end.

(** The body of the inner loop of [trace]: one entry for attribute [key]
    of module [name]. *)
Definition trace_attribute (name : string) (module_dict : gmap string obj)
    (es : list item) (key : string) : list item :=
  match module_dict !! key with
  | Some o =>
      es ++ [IEntry (mkRecordEntry (VStr name) (VStr key)
                                   (VStr (class_name o)) (VInt (domisize o)))]
  | None => es
  end.

(** [sorted(set(module_dict.keys()) - set(IGNORE_NAMES))]. *)
Definition obj_keys (module_dict : gmap string obj) : list string :=
  sorted (elements (dom module_dict ∖ list_to_set IGNORE_NAMES)).

(** The body of the outer loop of [trace]. *)
Definition trace_module (es : list item) (name : string) : list item :=
  match sys_modules !! name with
  | None => es
  | Some module_dict =>
      foldl (trace_attribute name module_dict) es (obj_keys module_dict)
  end.

(** The entries of the record that [trace] assembles. *)
Definition trace_entries : list item := foldl trace_module [] get_modules.

(** Lines 172 to 174 of [trace]: the index of the new record. *)
Definition allocate_index : M (option Z) :=
  added ← memcache_add INDEX_KEY (CInt 1);
  if added : bool then mret (Some 1) else memcache_incr INDEX_KEY.

(** [trace], with the index it allocated as a ghost result ([trace]
    itself returns [None]). *)
Definition trace_indexed : M (option Z) :=
  let record := mkRecord (AList trace_entries) in
  index ← allocate_index;
  let key := RECORD_PREFIX +:+ str index in
  _ ← memcache_add key (CText (EncodeJSON record));
  mret index.

Definition trace : M unit :=
  _ ← trace_indexed; mret ().

(** [n] calls of [trace] in sequence; the result lists the allocated
    indices in call order. *)
Fixpoint traces (n : nat) : M (list (option Z)) :=
  match n with
  | O => mret []
  | S n' => i ← trace_indexed; rest ← traces n'; mret (i :: rest)
  end.

(** [get_raw_records].  A counter that is [None] or [0] is false.  A
    counter holding text is false when the text is empty; otherwise, in
    Python 2, text is never below an integer, [limit] stays, and the
    subtraction raises as soon as the range has an element. *)
Definition get_raw_records (limit offset : Z) : M (result (list cval)) :=
  curr_index ← memcache_get INDEX_KEY;
  match curr_index with
  | None => mret (Ok [])
  | Some (CInt curr_index) =>
      if curr_index =? 0 then mret (Ok []) else
      let limit := if curr_index <? limit then curr_index else limit in
      let keys := (λ i, pretty (curr_index - i)) <$> xrange offset limit in
      records ← memcache_get_multi keys RECORD_PREFIX;
      mret (mapM (getitem records) keys)
  | Some (CText t) =>
      if negb (text_nonempty t) then mret (Ok []) else
      match xrange offset limit with
      | [] =>
          records ← memcache_get_multi [] RECORD_PREFIX;
          mret (mapM (getitem records) [])
      | _ :: _ => mret (Raise TypeError)
      end
  end.

(** [Record.FromJSON] applied to a stored value: [simplejson.loads]
    refuses what is not text. *)
Definition FromJSON_stored (v : cval) : result record :=
  match v with
  | CText t => FromJSON t
  | CInt _ => Raise TypeError
  end.

(** [get_records]. *)
Definition get_records (limit offset : Z) : M (result (list record)) :=
  records ← get_raw_records limit offset;
  mret (records ≫= mapM FromJSON_stored).

(** ** The notions the properties are stated with *)

(** A well-formed snapshot: a [Record] whose list holds [RecordEntry]
    instances with three texts and a non-negative integer as fields. *)
Definition valid_entry (it : item) : bool :=
  match it with
  | IEntry (mkRecordEntry (VStr _) (VStr _) (VStr _) (VInt n)) =>
      bool_decide (0 ≤ n)
  | _ => false
  end.

Definition valid_snapshot (r : record) : bool :=
  match entries r with
  | AList l => forallb valid_entry l
  | APlain _ => false
  end.







(** The arithmetic of retrieval as the specification words it: the
    effective limit, and the candidate indices [currentIndex - i] for [i]
    from [offset] to [effectiveLimit - 1]. *)
Definition effective_limit (limit curr_index : Z) : Z := Z.min limit curr_index.

Definition candidate_indices (limit offset curr_index : Z) : list Z :=
  (λ i, curr_index - i)
    <$> seqZ offset (effective_limit limit curr_index - offset).

(** The key under which the record of index [i] is stored. *)
Definition record_key (i : Z) : string := RECORD_PREFIX +:+ pretty i.

(** Running a computation of [M]: unfold the sequencing and evaluate. *)
Ltac run_M := unfold mbind, M_bind, mret, M_ret; cbn.

(** ** Lists of fallible steps *)

Lemma mapM_result_fmap {A B} (f : A → result B) (g : B → A) (l : list B) :
  Forall (λ x, f (g x) = Ok x) l → mapM f (g <$> l) = Ok l.
Proof.
  induction 1 as [|x l Hx _ IH]; [done|].
  cbn. rewrite Hx. cbn. by rewrite IH.
Qed.

Lemma mapM_result_Ok {A B} (f : A → result B) (l : list A) (k : list B) :
  mapM f l = Ok k ↔ Forall2 (λ x y, f x = Ok y) l k.
Proof.
  split.
  - revert k. induction l as [|x l IH]; intros k; cbn.
    + intros [= <-]. constructor.
    + destruct (f x) as [y|e] eqn:Hx; cbn; [|done].
      destruct (mapM f l) as [k'|e]; cbn; [|done].
      intros [= <-]. constructor; [done|]. by apply IH.
  - induction 1 as [|x y l k Hx _ IH]; [done|].
    cbn. rewrite Hx. cbn. by rewrite IH.
Qed.

Lemma mapM_result_Raise {A B} (f : A → result B) (l : list A) (e : exn) :
  mapM f l = Raise e → ∃ x, x ∈ l ∧ f x = Raise e.
Proof.
  induction l as [|x l IH]; cbn; [done|].
  destruct (f x) as [y|e'] eqn:Hx; cbn.
  - destruct (mapM f l) as [k'|e']; cbn; [done|].
    intros [= <-]. destruct IH as (x' & ? & ?); [done|].
    exists x'. split; [by right|done].
  - intros [= <-]. exists x. split; [by left|done].
Qed.

Lemma mapM_result_is_Ok {A B} (f : A → result B) (l : list A) :
  is_Ok (mapM f l) ↔ Forall (λ x, is_Ok (f x)) l.
Proof.
  split.
  - intros [k Hk]. apply mapM_result_Ok in Hk.
    induction Hk; constructor; [by eexists|done].
  - induction 1 as [|x l [y Hy] _ [k Hk]]; [by eexists|].
    exists (y :: k). cbn. rewrite Hy. cbn. by rewrite Hk.
Qed.

(** ** Serialization *)






Lemma dict_map_to_list {A} (d : gmap string A) : dict (map_to_list d) = d.
Proof.
  unfold dict. symmetry. apply list_to_map_flip.
  by rewrite reverse_Permutation.
Qed.

Lemma mapM_result_guard {A} (P : A → bool) (l : list A) :
  mapM (λ x, if P x then Ok x else Raise TypeError) l
  = if forallb P l then Ok l else Raise TypeError.
Proof.
  induction l as [|x l IH]; [done|]. cbn.
  destruct (P x); cbn; [|done]. rewrite IH. by destruct (forallb P l).
Qed.

(** The comprehension on a dictionary keeps the items when every key is
    ASCII, and raises otherwise. *)
Lemma keyed_items_dict (d : gmap string value) :
  keyed_items (VDict d)
  = if forallb (λ kv, is_ascii kv.1) (map_to_list d)
    then Ok (map_to_list d) else Raise TypeError.
Proof. apply (mapM_result_guard (λ kv : string * value, is_ascii kv.1)). Qed.

Lemma keyed_items_dict_ascii (d : gmap string value) :
  (∀ k, k ∈ dom d → is_ascii k = true) →
  keyed_items (VDict d) = Ok (map_to_list d).
Proof.
  intros Hd. rewrite keyed_items_dict.
  assert (forallb (λ kv : string * value, is_ascii kv.1) (map_to_list d)
          = true) as ->; [|done].
  apply forallb_forall. intros [k v] Hkv%list_elem_of_In%elem_of_map_to_list.
  apply Hd, elem_of_dom. by exists v.
Qed.





Lemma RecordEntry_new_repr (e : RecordEntry) :
  make_args (RecordEntry_repr e) ≫= RecordEntry_new = Ok e.
Proof.
  destruct e as [m n t s]. unfold make_args, RecordEntry_repr.
  rewrite keyed_items_dict_ascii.
  - cbn. rewrite dict_map_to_list. unfold RecordEntry_new.
    rewrite decide_True.
    + unfold getitem. by simplify_map_eq.
    + rewrite !dom_insert_L, dom_empty_L. compute_done.
  - intros k. rewrite !dom_insert_L, dom_empty_L.
    rewrite !elem_of_union, !elem_of_singleton, elem_of_empty.
    intros [->|[->|[->|[->|[]]]]]; reflexivity.
Qed.




(** [FromJSON] on a document with the single field [entries]. *)
Lemma FromJSON_entries (json : text) (v : value) :
  loads json = Some (VDict {["entries" := v]}) →
  FromJSON json = a ← Record_make_value v; Ok (mkRecord a).
Proof.
  intros Hl. unfold FromJSON. rewrite Hl.
  rewrite keyed_items_dict_ascii.
  - rewrite map_to_list_singleton. cbn.
    destruct (Record_make_value v) as [a|e]; [|done]. cbn.
    unfold Record_new, dict. cbn. rewrite insert_empty, dom_singleton_L.
    rewrite decide_True by done.
    unfold getitem. by rewrite lookup_singleton_eq.
  - intros k. rewrite dom_singleton_L, elem_of_singleton. by intros ->.
Qed.





(** ** Retrieval *)

Lemma effective_limit_code (limit curr_index : Z) :
  (if curr_index <? limit then curr_index else limit)
  = effective_limit limit curr_index.
Proof. unfold effective_limit. case_match; lia. Qed.

(** The run of [get_raw_records] on a cache whose counter holds a non-zero
    integer: one read of the counter, then one multi-key read of the keys
    of the candidate indices. *)
Lemma get_raw_records_run (limit offset curr_index : Z) (m : memcache) :
  store m !! INDEX_KEY = Some (CInt curr_index) → curr_index ≠ 0 →
  let keys := pretty <$> candidate_indices limit offset curr_index in
  get_raw_records limit offset m =
    (mapM (getitem (memcache_get_multi keys RECORD_PREFIX m).1) keys,
     logged (CallGetMulti keys RECORD_PREFIX) (logged (CallGet INDEX_KEY) m)).
Proof.
  intros Hc Hnz. unfold get_raw_records, memcache_get; run_M.
  rewrite Hc. apply Z.eqb_neq in Hnz. rewrite Hnz.
  rewrite effective_limit_code. unfold candidate_indices, xrange.
  by rewrite <-list_fmap_compose.
Qed.

Lemma candidate_indices_length (limit offset curr_index : Z) :
  length (candidate_indices limit offset curr_index)
  = Z.to_nat (effective_limit limit curr_index - offset).
Proof. unfold candidate_indices. by rewrite length_fmap, length_seqZ. Qed.

Lemma candidate_indices_lookup (limit offset curr_index : Z) (j : nat) :
  (j < length (candidate_indices limit offset curr_index))%nat →
  candidate_indices limit offset curr_index !! j
  = Some (curr_index - (offset + Z.of_nat j)).
Proof.
  rewrite candidate_indices_length. intros Hj.
  unfold candidate_indices. rewrite list_lookup_fmap, lookup_seqZ_lt; [done|lia].
Qed.

(** C2.  With the counter present and at least 1, [get_raw_records] reads
    the counter and then asks for exactly the keys of the candidate list
    [currentIndex - i], [i] from [offset] to [min(limit, currentIndex) - 1],
    in that order: the list has [min(limit, currentIndex) - offset]
    elements (none when [offset] is not below the effective limit), and its
    [j]-th element is [currentIndex - (offset + j)]. *)
Theorem get_raw_records_candidates (limit offset curr_index : Z) (m : memcache) :
  store m !! INDEX_KEY = Some (CInt curr_index) → 1 ≤ curr_index →
  let cands := candidate_indices limit offset curr_index in
  calls (get_raw_records limit offset m).2
    = calls m ++ [CallGet INDEX_KEY;
                  CallGetMulti (pretty <$> cands) RECORD_PREFIX] ∧
  length cands = Z.to_nat (Z.min limit curr_index - offset) ∧
  (Z.min limit curr_index ≤ offset → cands = []) ∧
  ∀ j : nat, (j < length cands)%nat →
    cands !! j = Some (curr_index - (offset + Z.of_nat j)).
Proof.
  intros Hc Hpos cands. repeat split.
  - rewrite (get_raw_records_run _ _ curr_index) by (done || lia).
    cbn. by rewrite <-app_assoc.
  - apply candidate_indices_length.
  - intros Hle. apply nil_length_inv.
    unfold cands. rewrite candidate_indices_length.
    unfold effective_limit. lia.
  - apply candidate_indices_lookup.
Qed.

(** C9.  With no counter key in the cache, [get_raw_records] returns the
    empty list after the single read of the counter: no multi-key read is
    made, and the store is left as it was. *)
Theorem get_raw_records_no_counter (limit offset : Z) (m : memcache) :
  store m !! INDEX_KEY = None →
  (get_raw_records limit offset m).1 = Ok [] ∧
  calls (get_raw_records limit offset m).2 = calls m ++ [CallGet INDEX_KEY] ∧
  store (get_raw_records limit offset m).2 = store m.
Proof.
  intros Hc. unfold get_raw_records, memcache_get; run_M.
  by rewrite Hc.
Qed.

(** C10.  With the counter at least 1 and a non-negative offset, every
    index whose key [get_raw_records] asks for lies between
    [currentIndex - min(limit, currentIndex) + 1] and
    [currentIndex - offset], and is at least 1: no key of index 0 or of a
    negative index is requested. *)
Theorem get_raw_records_indices_positive
    (limit offset curr_index : Z) (m : memcache) :
  store m !! INDEX_KEY = Some (CInt curr_index) → 1 ≤ curr_index →
  0 ≤ offset →
  ∃ idxs : list Z,
    calls (get_raw_records limit offset m).2
      = calls m ++ [CallGet INDEX_KEY;
                    CallGetMulti (pretty <$> idxs) RECORD_PREFIX] ∧
    Forall (λ i, curr_index - Z.min limit curr_index + 1 ≤ i ≤ curr_index - offset
                 ∧ 1 ≤ i) idxs.
Proof.
  intros Hc Hpos Hoff. exists (candidate_indices limit offset curr_index).
  split.
  - rewrite (get_raw_records_run _ _ curr_index) by (done || lia).
    cbn. by rewrite <-app_assoc.
  - unfold candidate_indices, effective_limit.
    apply Forall_fmap, Forall_seqZ. intros i Hi. cbn. lia.
Qed.

Lemma mapM_result_ext {A B} (f g : A → result B) (l : list A) :
  Forall (λ x, f x = g x) l → mapM f l = mapM g l.
Proof.
  induction 1 as [|x l Hx _ IH]; [done|]. cbn. by rewrite Hx, IH.
Qed.

Lemma mapM_result_Exists_Raise {A B} (f : A → result B) (l : list A) (e0 : exn) :
  (∀ x e, f x = Raise e → e = e0) →
  Exists (λ x, f x = Raise e0) l → mapM f l = Raise e0.
Proof.
  intros Hf Hex. destruct (mapM f l) as [k|e] eqn:Hm.
  - apply mapM_result_Ok in Hm. exfalso.
    induction Hm as [|x y l k Hx _ IH]; inversion Hex; simplify_eq;
      [congruence|auto].
  - apply mapM_result_Raise in Hm as (x & _ & Hx). f_equal. eauto.
Qed.

(** What [get_multi] finds: the stored value of each key asked for, under
    the key without its prefix. *)
Lemma memcache_get_multi_lookup (keys : list string) (key_prefix key : string)
    (m : memcache) :
  (memcache_get_multi keys key_prefix m).1 !! key
  = if decide (key ∈ keys) then store m !! (key_prefix +:+ key) else None.
Proof.
  cbn. induction keys as [|k keys IH]; cbn.
  - by rewrite lookup_empty, decide_False by apply not_elem_of_nil.
  - destruct (decide (key = k)) as [->|Hne].
    + rewrite decide_True by (by left).
      destruct (store m !! (key_prefix +:+ k)) as [v|] eqn:Hk.
      * by rewrite lookup_insert_eq.
      * rewrite IH. case_decide; congruence.
    + assert ((if decide (key ∈ k :: keys) then store m !! (key_prefix +:+ key)
               else None)
              = if decide (key ∈ keys) then store m !! (key_prefix +:+ key)
                else None) as ->.
      { destruct (decide (key ∈ keys)).
        - by rewrite decide_True by (by right).
        - by rewrite decide_False by (by intros [?|?]%elem_of_cons). }
      destruct (store m !! (key_prefix +:+ k)); [|done].
      by rewrite lookup_insert_ne.
Qed.

(** The result of [get_raw_records] on a cache whose counter holds a
    non-zero integer: the stored values of the candidate keys, or
    [KeyError] at the first one that is absent. *)
Lemma get_raw_records_result (limit offset curr_index : Z) (m : memcache) :
  store m !! INDEX_KEY = Some (CInt curr_index) → curr_index ≠ 0 →
  (get_raw_records limit offset m).1
  = mapM (λ i, getitem (store m) (record_key i))
         (candidate_indices limit offset curr_index).
Proof.
  intros Hc Hnz. rewrite (get_raw_records_run _ _ curr_index) by done.
  cbn [fst]. generalize (candidate_indices limit offset curr_index) as cands.
  intros cands.
  set (found := (memcache_get_multi (pretty <$> cands) RECORD_PREFIX m).1).
  assert (∀ i, i ∈ cands →
            getitem found (pretty i) = getitem (store m) (record_key i)) as Hf.
  { intros i Hi. unfold getitem, found.
    rewrite memcache_get_multi_lookup, decide_True; [done|].
    by apply list_elem_of_fmap_2. }
  clearbody found. induction cands as [|i cands IH]; [done|].
  cbn. rewrite Hf by (by left). rewrite IH; [done|].
  intros j Hj. apply Hf. by right.
Qed.

(** C5, as the code has it.  When the key of some candidate index is
    absent from the cache, the whole call of [get_raw_records] raises
    [KeyError] and no value is returned, not even those of the candidates
    that are present; the absent key is not skipped.  When every candidate
    key is present, the stored values are returned in the order of the
    candidate list. *)
Theorem get_raw_records_missing (limit offset curr_index : Z) (m : memcache) :
  store m !! INDEX_KEY = Some (CInt curr_index) → curr_index ≠ 0 →
  let cands := candidate_indices limit offset curr_index in
  ((∃ i, i ∈ cands ∧ store m !! record_key i = None) →
     (get_raw_records limit offset m).1 = Raise KeyError) ∧
  ((∀ i, i ∈ cands → is_Some (store m !! record_key i)) →
     ∃ vs, (get_raw_records limit offset m).1 = Ok vs ∧
           Forall2 (λ i v, store m !! record_key i = Some v) cands vs).
Proof.
  intros Hc Hnz cands.
  rewrite (get_raw_records_result _ _ curr_index) by done. fold cands. split.
  - intros (i & Hi & Habs). apply mapM_result_Exists_Raise.
    + intros j e. unfold getitem. by destruct (store m !! record_key j); intros [=].
    + apply Exists_exists. exists i. split; [done|].
      unfold getitem. by rewrite Habs.
  - intros Hall.
    assert (is_Ok (mapM (λ i, getitem (store m) (record_key i)) cands)) as [vs Hvs].
    { apply mapM_result_is_Ok, Forall_forall. intros i Hi.
      destruct (Hall i Hi) as [v Hv]. exists v. unfold getitem. by rewrite Hv. }
    exists vs. split; [done|]. apply mapM_result_Ok in Hvs.
    eapply Forall2_impl; [exact Hvs|]. intros i v. unfold getitem. cbn.
    by destruct (store m !! record_key i); intros [=]; subst.
Qed.

(** ** Index allocation and storage *)

Lemma allocate_index_absent (m : memcache) :
  store m !! INDEX_KEY = None →
  (allocate_index m).1 = Some 1 ∧
  store (allocate_index m).2 = <[INDEX_KEY := CInt 1]> (store m).
Proof.
  intros Hc. unfold allocate_index, memcache_add; run_M.
  by rewrite Hc.
Qed.

Lemma allocate_index_present (m : memcache) (k : Z) :
  store m !! INDEX_KEY = Some (CInt k) →
  (allocate_index m).1 = Some (k + 1) ∧
  store (allocate_index m).2 = <[INDEX_KEY := CInt (k + 1)]> (store m).
Proof.
  intros Hc. unfold allocate_index, memcache_add; run_M.
  rewrite Hc. cbn. unfold memcache_incr. cbn. by rewrite Hc.
Qed.

(** [add] never changes what a present key holds. *)
Lemma memcache_add_present (key k0 : string) (v x : cval) (m : memcache) :
  store m !! k0 = Some x → store (memcache_add key v m).2 !! k0 = Some x.
Proof.
  intros Hk. unfold memcache_add.
  destruct (store m !! key) eqn:Hkey; cbn; [done|].
  rewrite lookup_insert_ne; [done|]. congruence.
Qed.

Lemma memcache_add_occupied (key : string) (v x : cval) (m : memcache) :
  store m !! key = Some x →
  memcache_add key v m = (false, logged (CallAdd key v) m).
Proof. intros Hk. unfold memcache_add. by rewrite Hk. Qed.

Lemma trace_indexed_counter (m : memcache) (i : option Z) (k : Z) :
  (allocate_index m).1 = i →
  store (allocate_index m).2 !! INDEX_KEY = Some (CInt k) →
  (trace_indexed m).1 = i ∧
  store (trace_indexed m).2 !! INDEX_KEY = Some (CInt k).
Proof.
  intros Hi Hk. unfold trace_indexed; run_M.
  split; [done|]. by apply memcache_add_present.
Qed.

Lemma traces_from (n : nat) (k : Z) (m : memcache) :
  store m !! INDEX_KEY = Some (CInt k) →
  (traces n m).1 = Some <$> seqZ (k + 1) (Z.of_nat n).
Proof.
  revert k m. induction n as [|n IH]; intros k m Hk; [done|].
  destruct (allocate_index_present m k Hk) as [Hi Hs].
  destruct (trace_indexed_counter m (Some (k + 1)) (k + 1)) as [Hi' Hk'];
    [done|by rewrite Hs, lookup_insert_eq|].
  cbn [traces]; run_M.
  rewrite Hi', (IH (k + 1)) by done.
  rewrite (seqZ_cons (k + 1)) by lia. cbn. do 3 f_equal; lia.
Qed.

(** C3.  On a cache without the counter key, the index that [trace]
    allocates first is 1, and [N] calls of [trace] in sequence allocate
    1, 2, ..., [N] in this order: no index twice and none left out. *)
Theorem traces_indices (N : nat) (m : memcache) :
  store m !! INDEX_KEY = None →
  (trace_indexed m).1 = Some 1 ∧
  (traces N m).1 = Some <$> seqZ 1 (Z.of_nat N).
Proof.
  intros Hc. destruct (allocate_index_absent m Hc) as [Hi Hs].
  destruct (trace_indexed_counter m (Some 1) 1) as [Hi' Hk'];
    [done|by rewrite Hs, lookup_insert_eq|].
  split; [done|]. destruct N as [|n]; [done|].
  cbn [traces]; run_M.
  rewrite Hi', (traces_from n 1) by done.
  rewrite (seqZ_cons 1) by lia. cbn. do 3 f_equal; lia.
Qed.

(** When the key of the allocated index is free, [trace] stores the
    encoded record under it. *)
Lemma trace_stores (m : memcache) :
  let m1 := (allocate_index m).2 in
  let key := RECORD_PREFIX +:+ str (allocate_index m).1 in
  let new := CText (EncodeJSON (mkRecord (AList trace_entries))) in
  store m1 !! key = None →
  store (trace m).2 = <[key := new]> (store m1).
Proof.
  intros m1 key new Hfree. unfold trace, trace_indexed; run_M.
  fold m1 key new. unfold memcache_add. by rewrite Hfree.
Qed.

(** C8.  When the key of the allocated index is occupied, the store of the
    new record is dropped: [add] answers [False], [trace] does not look at
    the answer and returns [None] as always, and the store after [trace] is
    the store after the allocation, so the key still holds the value it
    held. *)
Theorem trace_write_once (m : memcache) (old : cval) :
  let m1 := (allocate_index m).2 in
  let key := RECORD_PREFIX +:+ str (allocate_index m).1 in
  let new := CText (EncodeJSON (mkRecord (AList trace_entries))) in
  store m1 !! key = Some old →
  (memcache_add key new m1).1 = false ∧
  trace m = ((), logged (CallAdd key new) m1) ∧
  store (trace m).2 = store m1 ∧
  store (trace m).2 !! key = Some old.
Proof.
  intros m1 key new Hold.
  assert (trace m = ((), logged (CallAdd key new) m1)) as Ht.
  { unfold trace, trace_indexed; run_M.
    fold m1 key new. by rewrite (memcache_add_occupied key new old m1). }
  rewrite Ht, (memcache_add_occupied key new old m1) by done. done.
Qed.

(** ** Collection *)

#[local] Instance string_le_trans : Transitive String.le.
Proof.
  intros a b c. unfold String.le, String.leb. intros Hab Hbc.
  destruct (String.compare a b) eqn:Eab;
    [apply String.compare_eq_iff in Eab; by subst| |done].
  destruct (String.compare b c) eqn:Ebc;
    [apply String.compare_eq_iff in Ebc; subst; by rewrite Eab| |done].
  pose proof (@StrictOrder_Transitive _ _ String_as_OT.lt_strorder a b c Eab Ebc)
    as Eac.
  change (String.compare a c = Lt) in Eac. by rewrite Eac.
Qed.

#[local] Instance string_le_total : Total String.le.
Proof.
  intros a b. unfold String.le.
  destruct (String.leb_total a b) as [->| ->]; [by left|by right].
Qed.

Lemma string_le_ne_ltb (a b : string) :
  String.le a b → a ≠ b → String.ltb a b = true.
Proof.
  unfold String.le, String.leb, String.ltb. intros Hle Hne.
  destruct (String.compare a b) eqn:E; [|done|done].
  by apply String.compare_eq_iff in E.
Qed.

(** The names that [trace] visits in a module: strictly ascending, and
    exactly the keys of the module that are not to be ignored. *)
Lemma obj_keys_sorted (d : gmap string obj) :
  StronglySorted (λ a b, String.ltb a b = true) (obj_keys d).
Proof.
  unfold obj_keys, sorted.
  set (l := elements (dom d ∖ list_to_set IGNORE_NAMES)).
  assert (NoDup (merge_sort String.le l)) as Hnd.
  { rewrite merge_sort_Permutation. apply NoDup_elements. }
  pose proof (StronglySorted_merge_sort String.le l) as Hs.
  induction Hs as [|a k Hk IH Ha]; [constructor|].
  apply NoDup_cons in Hnd as [Hin Hnd]. constructor; [by apply IH|].
  apply Forall_forall. intros b Hb.
  apply string_le_ne_ltb; [by eapply Forall_forall in Ha|].
  by intros ->.
Qed.

Lemma obj_keys_elem (d : gmap string obj) (k : string) :
  k ∈ obj_keys d ↔ k ∈ dom d ∧ k ∉ IGNORE_NAMES.
Proof.
  unfold obj_keys, sorted. rewrite merge_sort_Permutation, elem_of_elements.
  by rewrite elem_of_difference, elem_of_list_to_set.
Qed.

Lemma foldl_trace_attribute (name : string) (d : gmap string obj)
    (es : list item) (keys : list string) :
  foldl (trace_attribute name d) es keys
  = es ++ foldl (trace_attribute name d) [] keys.
Proof.
  revert es. induction keys as [|k keys IH]; intros es; cbn.
  - by rewrite app_nil_r.
  - rewrite IH, (IH (trace_attribute name d [] k)).
    unfold trace_attribute. destruct (d !! k); cbn; [|done].
    by rewrite <-app_assoc.
Qed.

Lemma trace_module_app (es : list item) (name : string) :
  trace_module es name = es ++ trace_module [] name.
Proof.
  unfold trace_module. destruct (sys_modules !! name).
  - apply foldl_trace_attribute.
  - by rewrite app_nil_r.
Qed.

Lemma foldl_trace_module (es : list item) (names : list string) :
  foldl trace_module es names = es ++ mjoin (trace_module [] <$> names).
Proof.
  revert es. induction names as [|n names IH]; intros es; cbn.
  - by rewrite app_nil_r.
  - by rewrite IH, trace_module_app, app_assoc.
Qed.

Lemma trace_attributes_entries (name : string) (d : gmap string obj)
    (keys : list string) :
  (∀ k, k ∈ keys → k ∈ dom d) →
  Forall2 (λ k it, ∃ o, d !! k = Some o ∧
                        it = IEntry (mkRecordEntry (VStr name) (VStr k)
                                       (VStr (class_name o)) (VInt (domisize o))))
          keys (foldl (trace_attribute name d) [] keys).
Proof.
  induction keys as [|k keys IH]; intros Hdom; cbn; [constructor|].
  rewrite foldl_trace_attribute.
  destruct (proj1 (elem_of_dom d k) (Hdom k ltac:(by left))) as [o Ho].
  unfold trace_attribute at 1. rewrite Ho. cbn. constructor.
  - by exists o.
  - apply IH. intros k' Hk'. apply Hdom. by right.
Qed.

(** C7.  The entries that [trace] assembles are the concatenation, in the
    order of the configured module list, of one section per module name.
    The section of a module that is not loaded is empty.  The section of a
    loaded module has one entry per attribute name that is a key of the
    module and not in the ignore list, the names running in strictly
    ascending order of text; each entry carries the module name, the
    attribute name, the class name of the object and its dominated size. *)
Theorem trace_entries_sections :
  ∃ section : string → list item,
    trace_entries = mjoin (section <$> get_modules) ∧
    ∀ name,
      match sys_modules !! name with
      | None => section name = []
      | Some d =>
          ∃ keys,
            StronglySorted (λ a b, String.ltb a b = true) keys ∧
            (∀ k, k ∈ keys ↔ k ∈ dom d ∧ k ∉ IGNORE_NAMES) ∧
            Forall2 (λ k it,
                       ∃ o, d !! k = Some o ∧
                            it = IEntry (mkRecordEntry (VStr name) (VStr k)
                                           (VStr (class_name o))
                                           (VInt (domisize o))))
                    keys (section name)
      end.
Proof.
  exists (trace_module []). split.
  - unfold trace_entries. by rewrite foldl_trace_module.
  - intros name. unfold trace_module.
    destruct (sys_modules !! name) as [d|]; [|done].
    exists (obj_keys d). split; [apply obj_keys_sorted|].
    split; [apply obj_keys_elem|].
    apply trace_attributes_entries. intros k Hk. by apply obj_keys_elem in Hk as [? _].
Qed.

(** ** Further properties of retrieval *)

(** The calls that only read the cache. *)
Definition is_read (c : call) : bool :=
  match c with
  | CallGet _ | CallGetMulti _ _ => true
  | CallAdd _ _ | CallIncr _ => false
  end.

Lemma mapM_result_length {A B} (f : A → result B) (l : list A) (k : list B) :
  mapM f l = Ok k → length k = length l.
Proof. intros H%mapM_result_Ok. symmetry. by eapply Forall2_length. Qed.

Lemma mapM_result_drop {A B} (f : A → result B) (l : list A) (k : list B)
    (n : nat) :
  mapM f l = Ok k → mapM f (drop n l) = Ok (drop n k).
Proof.
  rewrite !mapM_result_Ok. intros H. by apply Forall2_drop.
Qed.

Lemma candidate_indices_drop (limit offset curr_index : Z) :
  0 ≤ offset →
  candidate_indices limit offset curr_index
  = drop (Z.to_nat offset) (candidate_indices limit 0 curr_index).
Proof.
  intros Hoff. unfold candidate_indices. rewrite <-fmap_drop. f_equal.
  generalize (effective_limit limit curr_index). intros e.
  apply list_eq. intros j. rewrite lookup_drop, Z.sub_0_r.
  destruct (decide (offset + Z.of_nat j < e)) as [Hj|Hj].
  - rewrite !lookup_seqZ_lt by lia. f_equal. lia.
  - by rewrite !lookup_seqZ_ge by lia.
Qed.

(** X1.  Retrieval only reads.  Whatever the cache holds, [get_raw_records]
    leaves the store as it found it and makes at most two calls, each a
    [get] or a [get_multi]; [get_records] leaves the cache in the same
    state as [get_raw_records]. *)
Theorem get_raw_records_reads_only (limit offset : Z) (m : memcache) :
  store (get_raw_records limit offset m).2 = store m ∧
  (get_records limit offset m).2 = (get_raw_records limit offset m).2 ∧
  ∃ reads,
    calls (get_raw_records limit offset m).2 = calls m ++ reads ∧
    forallb is_read reads = true ∧ (length reads ≤ 2)%nat.
Proof.
  split; [|split; [done|]].
  - unfold get_raw_records, memcache_get; run_M.
    destruct (store m !! INDEX_KEY) as [[cur|t]|]; [| |done].
    + by destruct (cur =? 0).
    + destruct (text_nonempty t); [|done]. cbn.
      by destruct (xrange offset limit).
  - unfold get_raw_records, memcache_get; run_M.
    destruct (store m !! INDEX_KEY) as [[cur|t]|].
    + destruct (cur =? 0); cbn.
      * exists [CallGet INDEX_KEY]. split; [done|split; [done|cbn; lia]].
      * eexists [CallGet INDEX_KEY; CallGetMulti _ _]. cbn.
        rewrite <-app_assoc. split; [done|split; [done|cbn; lia]].
    + destruct (text_nonempty t); cbn.
      * destruct (xrange offset limit); cbn.
        -- eexists [CallGet INDEX_KEY; CallGetMulti _ _]. cbn.
           rewrite <-app_assoc. split; [done|split; [done|cbn; lia]].
        -- exists [CallGet INDEX_KEY]. split; [done|split; [done|cbn; lia]].
      * exists [CallGet INDEX_KEY]. split; [done|split; [done|cbn; lia]].
    + exists [CallGet INDEX_KEY]. split; [done|split; [done|cbn; lia]].
Qed.

(** The result of [get_raw_records] by the state of the counter: absent,
    zero, or a text. *)
Lemma get_raw_records_result_falsy (limit offset : Z) (m : memcache) :
  store m !! INDEX_KEY = None ∨ store m !! INDEX_KEY = Some (CInt 0) →
  (get_raw_records limit offset m).1 = Ok [].
Proof.
  intros [Hc|Hc]; unfold get_raw_records, memcache_get; run_M; by rewrite Hc.
Qed.

Lemma get_raw_records_result_text (limit offset : Z) (m : memcache) (t : text) :
  store m !! INDEX_KEY = Some (CText t) →
  (get_raw_records limit offset m).1
  = if negb (text_nonempty t) || bool_decide (limit ≤ offset)
    then Ok [] else Raise TypeError.
Proof.
  intros Hc. unfold get_raw_records, memcache_get; run_M. rewrite Hc.
  destruct (text_nonempty t); cbn; [|done].
  unfold xrange. case_bool_decide as Hle.
  - by rewrite seqZ_nil by lia.
  - by rewrite seqZ_cons by lia.
Qed.

(** X2.  A page is never longer than asked for: when [get_raw_records]
    returns, it returns at most [limit - offset] values, hence at most
    [limit] of them for an offset that is not negative. *)
Theorem get_raw_records_at_most_limit (limit offset : Z) (m : memcache)
    (vs : list cval) :
  (get_raw_records limit offset m).1 = Ok vs →
  (length vs ≤ Z.to_nat (limit - offset))%nat ∧
  (0 ≤ offset → (length vs ≤ Z.to_nat limit)%nat).
Proof.
  intros Hvs.
  assert (length vs ≤ Z.to_nat (limit - offset))%nat as Hlen; [|split; lia].
  destruct (store m !! INDEX_KEY) as [[cur|t]|] eqn:Hc.
  - destruct (decide (cur = 0)) as [->|Hnz].
    + rewrite get_raw_records_result_falsy in Hvs by auto.
      injection Hvs as <-. cbn. lia.
    + rewrite (get_raw_records_result _ _ cur) in Hvs by done.
      apply mapM_result_length in Hvs. rewrite Hvs, candidate_indices_length.
      unfold effective_limit. lia.
  - rewrite (get_raw_records_result_text _ _ _ t) in Hvs by done.
    destruct (_ || _); [|done]. injection Hvs as <-. cbn. lia.
  - rewrite get_raw_records_result_falsy in Hvs by auto.
    injection Hvs as <-. cbn. lia.
Qed.

(** X3.  An offset at or past the effective limit gives the empty page and
    no error, whether or not any record is stored. *)
Theorem get_raw_records_empty_page (limit offset curr_index : Z)
    (m : memcache) :
  store m !! INDEX_KEY = Some (CInt curr_index) →
  Z.min limit curr_index ≤ offset →
  (get_raw_records limit offset m).1 = Ok [].
Proof.
  intros Hc Hle. destruct (decide (curr_index = 0)) as [->|Hnz].
  - apply get_raw_records_result_falsy. auto.
  - rewrite (get_raw_records_result _ _ curr_index) by done.
    unfold candidate_indices, effective_limit. by rewrite seqZ_nil by lia.
Qed.

(** X4.  The offset cuts into the page of offset 0, it does not move a
    window: when the call with offset 0 returns [vs], the call with a
    non-negative [offset] and the same limit returns [vs] without its first
    [offset] values. *)
Theorem get_raw_records_offset_drops (limit offset : Z) (m : memcache)
    (vs : list cval) :
  0 ≤ offset →
  (get_raw_records limit 0 m).1 = Ok vs →
  (get_raw_records limit offset m).1 = Ok (drop (Z.to_nat offset) vs).
Proof.
  intros Hoff Hvs. destruct (store m !! INDEX_KEY) as [[cur|t]|] eqn:Hc.
  - destruct (decide (cur = 0)) as [->|Hnz].
    + rewrite get_raw_records_result_falsy in Hvs by auto.
      rewrite get_raw_records_result_falsy by auto.
      injection Hvs as <-. by rewrite drop_nil.
    + rewrite (get_raw_records_result _ _ cur) in Hvs by done.
      rewrite (get_raw_records_result _ _ cur) by done.
      rewrite candidate_indices_drop by done. by apply mapM_result_drop.
  - rewrite (get_raw_records_result_text _ _ _ t) in Hvs by done.
    rewrite (get_raw_records_result_text _ _ _ t) by done.
    destruct (text_nonempty t); cbn in *.
    + case_bool_decide as H0; [|done]. injection Hvs as <-.
      rewrite bool_decide_eq_true_2 by lia. by rewrite drop_nil.
    + injection Hvs as <-. by rewrite drop_nil.
  - rewrite get_raw_records_result_falsy in Hvs by auto.
    rewrite get_raw_records_result_falsy by auto.
    injection Hvs as <-. by rewrite drop_nil.
Qed.


(** ** Further properties of [trace] *)

Lemma memcache_add_frame (key k : string) (v : cval) (m : memcache) :
  k ≠ key → store (memcache_add key v m).2 !! k = store m !! k.
Proof.
  intros Hne. unfold memcache_add.
  destruct (store m !! key); cbn; [done|]. by rewrite lookup_insert_ne.
Qed.

Lemma allocate_index_frame (k : string) (m : memcache) :
  k ≠ INDEX_KEY → store (allocate_index m).2 !! k = store m !! k.
Proof.
  intros Hne. unfold allocate_index, memcache_add; run_M.
  destruct (store m !! INDEX_KEY) as [[n|t]|] eqn:Hc; cbn.
  - unfold memcache_incr. cbn. rewrite Hc. cbn. by rewrite lookup_insert_ne.
  - unfold memcache_incr. cbn. by rewrite Hc.
  - by rewrite lookup_insert_ne.
Qed.

Lemma trace_store (m : memcache) :
  store (trace m).2
  = store (memcache_add (RECORD_PREFIX +:+ str (allocate_index m).1)
             (CText (EncodeJSON (mkRecord (AList trace_entries))))
             (allocate_index m).2).2.
Proof. by unfold trace, trace_indexed; run_M. Qed.

(** X6.  [trace] touches two keys at most: every key other than the
    counter key and the key of the allocated index holds after [trace] what
    it held before, or is absent as before. *)
Theorem trace_frame (m : memcache) (k : string) :
  k ≠ INDEX_KEY →
  k ≠ RECORD_PREFIX +:+ str (allocate_index m).1 →
  store (trace m).2 !! k = store m !! k.
Proof.
  intros Hi Hr. rewrite trace_store, memcache_add_frame by done.
  by apply allocate_index_frame.
Qed.

(** X7.  [trace] overwrites no record: a key other than the counter key
    that holds a value before [trace] holds the same value after it. *)
Theorem trace_keeps_records (m : memcache) (k : string) (v : cval) :
  k ≠ INDEX_KEY →
  store m !! k = Some v →
  store (trace m).2 !! k = Some v.
Proof.
  intros Hi Hk. rewrite trace_store. apply memcache_add_present.
  by rewrite allocate_index_frame.
Qed.


(** X19.  [trace] only writes, and increments only after a failed [add]:
    its calls are the [add] of the counter, then the [incr] of the counter
    exactly when the counter key was present, then the [add] of the record;
    it never reads the cache. *)
Theorem trace_calls (m : memcache) :
  let key := RECORD_PREFIX +:+ str (allocate_index m).1 in
  let new := CText (EncodeJSON (mkRecord (AList trace_entries))) in
  calls (trace m).2
  = calls m ++ [CallAdd INDEX_KEY (CInt 1)]
            ++ (match store m !! INDEX_KEY with
                | Some _ => [CallIncr INDEX_KEY]
                | None => []
                end)
            ++ [CallAdd key new] ∧
  ∃ writes, calls (trace m).2 = calls m ++ writes ∧
            forallb (λ c, negb (is_read c)) writes = true.
Proof.
  intros key new.
  assert (calls (trace m).2
          = calls m ++ [CallAdd INDEX_KEY (CInt 1)]
              ++ (match store m !! INDEX_KEY with
                | Some _ => [CallIncr INDEX_KEY]
                | None => []
                end)
              ++ [CallAdd key new]) as Hcalls.
  { unfold trace, trace_indexed; run_M. fold key new.
    assert (calls (memcache_add key new (allocate_index m).2).2
            = calls (allocate_index m).2 ++ [CallAdd key new]) as ->.
    { unfold memcache_add. by destruct (store _ !! key). }
    unfold allocate_index, memcache_add; run_M.
    destruct (store m !! INDEX_KEY) as [[n|t]|] eqn:Hc; cbn.
    - unfold memcache_incr. cbn. rewrite Hc. cbn. by rewrite <-!app_assoc.
    - unfold memcache_incr. cbn. rewrite Hc. cbn. by rewrite <-!app_assoc.
    - by rewrite <-!app_assoc. }
  split; [done|]. eexists. split; [exact Hcalls|].
  by destruct (store m !! INDEX_KEY).
Qed.

(** The elements of the record that [trace] assembles. *)
Lemma elem_of_trace_entries (it : item) :
  it ∈ trace_entries ↔
  ∃ mname d k o,
    mname ∈ get_modules ∧ sys_modules !! mname = Some d ∧ d !! k = Some o ∧
    (k ∉ IGNORE_NAMES) ∧
    it = IEntry (mkRecordEntry (VStr mname) (VStr k) (VStr (class_name o))
                               (VInt (domisize o))).
Proof.
  unfold trace_entries. rewrite foldl_trace_module, app_nil_l.
  rewrite list_elem_of_join. split.
  - intros (l & Hit & (name & -> & Hname)%list_elem_of_fmap).
    unfold trace_module in Hit.
    destruct (sys_modules !! name) as [d|] eqn:Hd;
      [|by apply not_elem_of_nil in Hit].
    apply list_elem_of_lookup in Hit as [i Hi].
    assert (∀ k, k ∈ obj_keys d → k ∈ dom d) as Hdom.
    { intros k Hk. by apply obj_keys_elem in Hk as [? _]. }
    destruct (Forall2_lookup_r _ _ _ _ _
                (trace_attributes_entries name d (obj_keys d) Hdom) Hi)
      as (k & Hk & o & Ho & ->).
    exists name, d, k, o. repeat split; try done.
    apply list_elem_of_lookup_2 in Hk. by apply obj_keys_elem in Hk as [_ ?].
  - intros (name & d & k & o & Hname & Hd & Ho & Hk & ->).
    exists (trace_module [] name). split; [|by apply list_elem_of_fmap_2].
    unfold trace_module. rewrite Hd.
    assert (k ∈ obj_keys d) as Hin.
    { apply obj_keys_elem. split; [|done]. apply elem_of_dom. by exists o. }
    apply list_elem_of_lookup in Hin as [i Hi].
    assert (∀ k, k ∈ obj_keys d → k ∈ dom d) as Hdom.
    { intros k' Hk'. by apply obj_keys_elem in Hk' as [? _]. }
    destruct (Forall2_lookup_l _ _ _ _ _
                (trace_attributes_entries name d (obj_keys d) Hdom) Hi)
      as (it & Hit & o' & Ho' & ->).
    rewrite Ho in Ho'. injection Ho' as <-.
    by apply list_elem_of_lookup_2 in Hit.
Qed.

(** X9.  Which entries a record has: an entry is in the record that
    [trace] assembles exactly when it describes an attribute, not in the
    ignore list, of a module that is configured and loaded.  Nothing else
    is recorded: no ignored name, no module outside the configuration. *)
Theorem trace_entries_elem (it : item) :
  it ∈ trace_entries ↔
  ∃ mname d k o,
    mname ∈ get_modules ∧ sys_modules !! mname = Some d ∧ d !! k = Some o ∧
    (k ∉ IGNORE_NAMES) ∧
    it = IEntry (mkRecordEntry (VStr mname) (VStr k) (VStr (class_name o))
                               (VInt (domisize o))).
Proof. apply elem_of_trace_entries. Qed.

(** X10.  When the heap inspector reports no negative size, the record
    that [trace] assembles is a well-formed snapshot. *)
Theorem trace_record_valid :
  (∀ o, 0 ≤ domisize o) →
  valid_snapshot (mkRecord (AList trace_entries)) = true.
Proof.
  intros Hsize. unfold valid_snapshot. cbn.
  apply forallb_forall. intros it Hit%list_elem_of_In.
  apply elem_of_trace_entries in Hit as (name & d & k & o & _ & _ & _ & _ & ->).
  cbn. by apply bool_decide_eq_true.
Qed.

Lemma string_ltb_le (a b : string) : String.ltb a b = true → String.le a b.
Proof.
  unfold String.le, String.leb, String.ltb.
  by destruct (String.compare a b).
Qed.

Lemma string_ltb_irrefl (a : string) : String.ltb a a = false.
Proof.
  unfold String.ltb. destruct (String.compare a a) eqn:E; try done.
  pose proof (String.compare_antisym a a) as H. rewrite E in H. done.
Qed.

Lemma StronglySorted_ltb_le (l : list string) :
  StronglySorted (λ a b, String.ltb a b = true) l →
  StronglySorted String.le l ∧ NoDup l.
Proof.
  induction 1 as [|a l _ [IH1 IH2] Ha]; [split; constructor|]. split.
  - constructor; [done|]. eapply Forall_impl; [exact Ha|].
    intros b. apply string_ltb_le.
  - constructor; [|done]. intros Hin.
    eapply Forall_forall in Ha; [|exact Hin]. cbn in Ha.
    by rewrite string_ltb_irrefl in Ha.
Qed.

(** X11.  The order of the attributes is fixed by their names alone: the
    list of names that [trace] visits in a module is the only strictly
    ascending list of the module's keys that are not ignored, whatever
    order the dictionary and the set difference yield them in. *)
Theorem obj_keys_unique (d : gmap string obj) (l : list string) :
  StronglySorted (λ a b, String.ltb a b = true) l →
  list_to_set l = dom d ∖ list_to_set (C := gset string) IGNORE_NAMES →
  obj_keys d = l.
Proof.
  intros [Hle Hnd]%StronglySorted_ltb_le Hset.
  assert (AntiSymm (=) String.le) as Hanti.
  { intros a b Hab Hba. apply String.leb_antisym; by apply Is_true_true. }
  apply (StronglySorted_unique String.le).
  - unfold obj_keys, sorted. apply StronglySorted_merge_sort; apply _.
  - done.
  - unfold obj_keys, sorted. rewrite merge_sort_Permutation, <-Hset.
    by apply elements_list_to_set.
Qed.

(** X12.  A lost counter costs the next snapshot: when the counter key is
    absent while the key of index 1 still holds a record, [trace] allocates
    index 1 again, its own record is dropped, and reading the latest record
    gives the old one. *)
Theorem trace_after_counter_loss (m : memcache) (old : cval) :
  store m !! INDEX_KEY = None →
  record_key 1 ≠ INDEX_KEY →
  store m !! record_key 1 = Some old →
  (trace_indexed m).1 = Some 1 ∧
  store (trace m).2 !! INDEX_KEY = Some (CInt 1) ∧
  store (trace m).2 !! record_key 1 = Some old ∧
  (get_raw_records 1 0 (trace m).2).1 = Ok [old].
Proof.
  intros Hc Hne Hold.
  destruct (allocate_index_absent m Hc) as [Hi Hs].
  assert (store (trace m).2 !! INDEX_KEY = Some (CInt 1)) as Hc'.
  { rewrite trace_store. apply memcache_add_present.
    by rewrite Hs, lookup_insert_eq. }
  assert (store (trace m).2 !! record_key 1 = Some old) as Hold'.
  { rewrite trace_store. apply memcache_add_present.
    by rewrite allocate_index_frame. }
  repeat split; try done.
  rewrite (get_raw_records_result _ _ 1) by done.
  replace (candidate_indices 1 0 1) with [1] by reflexivity.
  cbn -[record_key]. unfold getitem. by rewrite Hold'.
Qed.

(** ** Further properties of serialization *)

(** [JSONSerializable.get_value] and [JSONSerializable.make_value], which
    [RecordEntry] inherits: the identity. *)
Definition JSONSerializable_get_value (v : value) : value := v.










(** ** Attributes of serializable objects

    [JSONSerializable] keeps the attributes of an instance in its
    [__dict__] under the name prefixed with [_k_]: [__setattr__] writes
    there, [__getattr__] reads there, and [__repr__] lists the keys that
    have the prefix, with the prefix cut off and [get_value] applied. *)
Definition attr_key (attr : string) : string := "_k_" +:+ attr.

Definition JSONSerializable_setattr {A} (o : gmap string A) (attr : string)
    (v : A) : gmap string A :=
  <[attr_key attr := v]> o.


(** [k.startswith(p)] and [k[n:]]. *)
Definition startswith (k p : string) : bool := String.prefix p k.
Definition slice_from (n : nat) (k : string) : string :=
  String.substring n (String.length k - n) k.

Definition JSONSerializable_repr {A} (get_value : A → value)
    (o : gmap string A) : gmap string value :=
  dict ((λ kv, (slice_from 3 kv.1, get_value kv.2))
          <$> filter (λ kv, startswith kv.1 "_k_" = true) (map_to_list o)).

(** [RecordEntry.__init__] and [Record.__init__]: the [__dict__] after the
    assignments. *)
Definition RecordEntry_init (module_name name obj_type dominated_size : value)
    : gmap string value :=
  JSONSerializable_setattr
    (JSONSerializable_setattr
       (JSONSerializable_setattr
          (JSONSerializable_setattr ∅ "module_name" module_name)
          "name" name)
       "obj_type" obj_type)
    "dominated_size" dominated_size.

Definition Record_init (entries : attr) : gmap string attr :=
  JSONSerializable_setattr ∅ "entries" entries.

Lemma substring_all (k : string) : String.substring 0 (String.length k) k = k.
Proof. induction k as [|c k IH]; [done|]. cbn. by rewrite IH. Qed.

Lemma slice_from_3 (c1 c2 c3 : Ascii.ascii) (k : string) :
  slice_from 3 (String c1 (String c2 (String c3 k))) = k.
Proof. unfold slice_from. cbn. rewrite Nat.sub_0_r. apply substring_all. Qed.

Lemma slice_from_attr_key (a : string) : slice_from 3 (attr_key a) = a.
Proof. exact (slice_from_3 _ _ _ a). Qed.

Lemma startswith_attr_key (a : string) : startswith (attr_key a) "_k_" = true.
Proof. unfold startswith. apply String.prefix_correct. by destruct a. Qed.

Lemma startswith_inv (k : string) :
  startswith k "_k_" = true → k = attr_key (slice_from 3 k).
Proof.
  unfold startswith. intros Hk%String.prefix_correct.
  destruct k as [|c1 [|c2 [|c3 k]]]; try done.
  rewrite slice_from_3. cbn in Hk. by injection Hk as -> -> -> _.
Qed.

#[local] Instance attr_key_inj : Inj (=) (=) attr_key.
Proof. intros a b H. by apply (inj (String.append "_k_")) in H. Qed.

(** What [__repr__] lists under a name is what the [__dict__] holds under
    the prefixed name. *)
Lemma JSONSerializable_repr_lookup {A} (get_value : A → value)
    (o : gmap string A) (a : string) :
  JSONSerializable_repr get_value o !! a = get_value <$> o !! attr_key a.
Proof.
  unfold JSONSerializable_repr, dict.
  set (L := filter (λ kv : string * A, startswith kv.1 "_k_" = true)
                   (map_to_list o)).
  set (f := λ kv : string * A, (slice_from 3 kv.1, get_value kv.2)).
  assert (∀ k v, (k, v) ∈ L ↔ o !! k = Some v ∧ startswith k "_k_" = true)
    as HL.
  { intros k v. unfold L. rewrite list_elem_of_filter, elem_of_map_to_list.
    cbn. split; intros [? ?]; by split. }
  assert (NoDup (reverse (f <$> L)).*1) as Hnd.
  { rewrite fmap_reverse, reverse_Permutation.
    rewrite <-list_fmap_compose.
    apply NoDup_fmap_2_strong.
    - intros [k1 v1] [k2 v2] H1%HL H2%HL Heq.
      change (slice_from 3 k1 = slice_from 3 k2) in Heq.
      destruct H1 as [H1 P1], H2 as [H2 P2].
      apply startswith_inv in P1, P2.
      assert (k1 = k2) as -> by (rewrite P1, P2; by f_equal).
      congruence.
    - unfold L. apply NoDup_filter, NoDup_map_to_list. }
  destruct (o !! attr_key a) as [v|] eqn:Ho; cbn.
  - apply elem_of_list_to_map_1; [done|].
    apply elem_of_reverse, list_elem_of_fmap.
    exists (attr_key a, v). split.
    + unfold f. cbn [fst snd]. by rewrite slice_from_attr_key.
    + apply HL. split; [done|]. apply startswith_attr_key.
  - apply not_elem_of_list_to_map_1.
    rewrite fmap_reverse, elem_of_reverse, <-list_fmap_compose.
    intros ([k v] & Hk & [Hkv Hp]%HL)%list_elem_of_fmap.
    change (a = slice_from 3 k) in Hk.
    apply startswith_inv in Hp. rewrite <-Hk in Hp. congruence.
Qed.


(** X16.  The dictionaries that serialization starts from are those of the
    constructed objects: [__repr__] of an instance built by
    [RecordEntry.__init__] lists exactly its four attributes under their
    plain names, and [__repr__] of an instance built by [Record.__init__]
    lists [entries], transformed by [Record.get_value]. *)
Theorem JSONSerializable_repr_init :
  (∀ m n t s,
     VDict (JSONSerializable_repr JSONSerializable_get_value
              (RecordEntry_init m n t s))
     = RecordEntry_repr (mkRecordEntry m n t s)) ∧
  (∀ a, VDict (JSONSerializable_repr Record_get_value (Record_init a))
        = Record_repr (mkRecord a)).
Proof.
  split.
  - intros m n t s. apply (f_equal VDict), map_eq. intros k.
    rewrite JSONSerializable_repr_lookup.
    unfold RecordEntry_init, JSONSerializable_setattr,
      JSONSerializable_get_value.
    rewrite !lookup_insert, !lookup_empty.
    repeat case_decide; simplify_eq; done.
  - intros a. apply (f_equal VDict), map_eq. intros k.
    rewrite JSONSerializable_repr_lookup.
    unfold Record_init, JSONSerializable_setattr.
    rewrite !lookup_insert, !lookup_empty.
    repeat case_decide; simplify_eq; done.
Qed.

(** ** Round trips

    The contract of [simplejson] that the recorder relies on: reading back
    what was written gives the document that was written. *)
Section Roundtrip.

Hypothesis loads_dumps : ∀ v, loads (dumps v) = Some v.

(** An encoded record whose list holds [RecordEntry] instances only is
    decoded to the same record, whatever the fields hold. *)
Lemma FromJSON_EncodeJSON_entries (es : list RecordEntry) :
  FromJSON (EncodeJSON (mkRecord (AList (IEntry <$> es))))
  = Ok (mkRecord (AList (IEntry <$> es))).
Proof using loads_dumps.
  rewrite (FromJSON_entries _ (Record_get_value (AList (IEntry <$> es)))).
  - cbn. rewrite mapM_result_fmap; [done|].
    apply Forall_fmap, Forall_forall. intros e _.
    pose proof (RecordEntry_new_repr e) as Hnew. cbn [compose].
    destruct (make_args (RecordEntry_repr e)) as [kw|e']; [|done].
    cbn in Hnew |- *. by rewrite Hnew.
  - unfold EncodeJSON, Record_repr. by rewrite loads_dumps, insert_empty.
Qed.

Lemma valid_snapshot_entries (s : record) :
  valid_snapshot s = true → ∃ es, s = mkRecord (AList (IEntry <$> es)).
Proof.
  destruct s as [[l|v]]; unfold valid_snapshot; cbn; [|done].
  intros Hl. apply Is_true_true, forallb_True in Hl.
  induction Hl as [|[e|v] l He _ [es Hes]]; [by exists []| |done].
  exists (e :: es). cbn. congruence.
Qed.


Lemma candidate_indices_all (K : Z) :
  candidate_indices K 0 K = reverse (seqZ 1 K).
Proof.
  unfold candidate_indices, effective_limit.
  rewrite Z.min_id, Z.sub_0_r.
  apply list_eq. intros j. rewrite list_lookup_fmap.
  destruct (decide (Z.of_nat j < K)) as [Hj|Hj].
  - rewrite lookup_seqZ_lt by done. cbn.
    rewrite reverse_lookup by (rewrite length_seqZ; lia).
    rewrite length_seqZ. rewrite lookup_seqZ_lt by lia. f_equal. lia.
  - rewrite lookup_seqZ_ge by lia. symmetry. apply lookup_ge_None.
    rewrite length_reverse, length_seqZ. lia.
Qed.

(** C4.  With the counter at [K] and the encodings of well-formed
    snapshots [snaps 1], ..., [snaps K] stored under the keys of the indices
    1 to [K], [get_records] with limit [K] and offset 0 returns exactly [K]
    records: [snaps K] first, then [snaps (K-1)], and so on down to
    [snaps 1]. *)
Theorem get_records_latest_first (K : Z) (snaps : Z → record) (m : memcache) :
  store m !! INDEX_KEY = Some (CInt K) →
  (∀ i, 1 ≤ i ≤ K →
     valid_snapshot (snaps i) = true ∧
     store m !! record_key i = Some (CText (EncodeJSON (snaps i)))) →
  (get_records K 0 m).1 = Ok (snaps <$> reverse (seqZ 1 K)) ∧
  length (snaps <$> reverse (seqZ 1 K)) = Z.to_nat K.
Proof using loads_dumps.
  intros Hc Hsn. split; [|by rewrite length_fmap, length_reverse, length_seqZ].
  unfold get_records, mbind at 1, M_bind. cbn [fst mret M_ret].
  destruct (decide (K = 0)) as [->|Hnz].
  { unfold get_raw_records, memcache_get; run_M. by rewrite Hc. }
  rewrite (get_raw_records_result _ _ K) by done.
  rewrite candidate_indices_all.
  assert (Forall (λ i, 1 ≤ i ≤ K) (reverse (seqZ 1 K))) as Hall.
  { apply Forall_reverse, Forall_seqZ. lia. }
  induction Hall as [|i l Hi _ IH]; [done|].
  destruct (Hsn i Hi) as [[es Hes]%valid_snapshot_entries Hst]. cbn.
  assert (getitem (store m) (record_key i) = Ok (CText (EncodeJSON (snaps i))))
    as -> by (unfold getitem; by rewrite Hst).
  cbn. destruct (mapM _ l) as [vs|e]; cbn in *; [|done].
  rewrite Hes, FromJSON_EncodeJSON_entries. cbn.
  by rewrite IH.
Qed.


(** *** Storing, then reading back *)








End Roundtrip.

End Recorder.

(** * Runs on concrete data *)

(** A wire format to run the recorder on: a text is either the document it
    stands for, or [None], a text that is not JSON. *)
Definition wire : Type := option value.
Definition wire_dumps (v : value) : wire := Some v.
Definition wire_loads (t : wire) : option value := t.
Definition wire_nonempty (t : wire) : bool := true.

Lemma wire_loads_dumps (v : value) : wire_loads (wire_dumps v) = Some v.
Proof. reflexivity. Qed.

(** The snapshot of the specification's encoding example. *)
Definition snapshot_ab : record :=
  mkRecord (AList [
    IEntry (mkRecordEntry (VStr "m1") (VStr "a") (VStr "int") (VInt 10));
    IEntry (mkRecordEntry (VStr "m2") (VStr "b") (VStr "list") (VInt 20))]).

Definition snapshot_c : record :=
  mkRecord (AList [
    IEntry (mkRecordEntry (VStr "m3") (VStr "c") (VStr "dict") (VInt 0))]).

(** An interpreter with one loaded module, as in the specification's scan
    example; an object is given by its class name and its dominated size. *)
Definition demo_modules : gmap string (gmap string (string * Z)) :=
  {[ "m" := {[ "X" := ("Foo", 100); "Y" := ("Bar", 50);
               "__name__" := ("str", 40) ]} ]}.

Definition demo_entries : list item :=
  trace_entries fst snd demo_modules ["gone"; "m"] ["__name__"].

Definition demo_trace : M (text := wire) () :=
  trace wire_dumps fst snd demo_modules ["gone"; "m"] ["__name__"]
        "index" "record_".

Definition demo_traces (n : nat) : M (text := wire) (list (option Z)) :=
  traces wire_dumps fst snd demo_modules ["gone"; "m"] ["__name__"]
         "index" "record_" n.

Definition demo_get_raw_records (limit offset : Z)
    : M (text := wire) (result (list cval)) :=
  get_raw_records wire_nonempty "index" "record_" limit offset.

Definition demo_get_records (limit offset : Z)
    : M (text := wire) (result (list record)) :=
  get_records wire_loads wire_nonempty "index" "record_" limit offset.

(** Caches: empty; with the counter alone; with two records stored; with
    the older of two records evicted; and after a reset of the counter,
    with a record left from before under the key of the next index. *)
Definition cache_empty : memcache (text := wire) := mkMemcache ∅ [].

Definition cache_counter : memcache (text := wire) :=
  mkMemcache {[ "index" := CInt 5 ]} [].

Definition cache_two : memcache (text := wire) :=
  mkMemcache (<["index" := CInt 2]>
             (<["record_1" := CText (EncodeJSON wire_dumps snapshot_ab)]>
             (<["record_2" := CText (EncodeJSON wire_dumps snapshot_c)]> ∅))) [].

Definition cache_evicted : memcache (text := wire) :=
  mkMemcache (<["index" := CInt 2]>
             (<["record_2" := CText (EncodeJSON wire_dumps snapshot_c)]> ∅)) [].

Definition cache_reset : memcache (text := wire) :=
  mkMemcache (<["index" := CInt 1]>
             (<["record_2" := CText (EncodeJSON wire_dumps snapshot_c)]> ∅)) [].




Example demo_entries_eq :
  demo_entries =
    [IEntry (mkRecordEntry (VStr "m") (VStr "X") (VStr "Foo") (VInt 100));
     IEntry (mkRecordEntry (VStr "m") (VStr "Y") (VStr "Bar") (VInt 50))].
Proof. vm_compute. reflexivity. Qed.

(** [make_args] on things that are not dictionaries: a list of indices of
    itself gives numerals as keys, an index out of range raises. *)
Example make_args_indices :
  make_args (VList [VInt 1; VInt (-2)])
  = Ok (<["1" := VInt (-2)]> (<["-2" := VInt 1]> ∅)).
Proof. vm_compute. reflexivity. Qed.

Example make_args_out_of_range :
  make_args (VList [VInt 5]) = Raise TypeError.
Proof. reflexivity. Qed.

(** Two calls of [trace] on the empty cache, then the two records read
    back. *)
Example demo_trace_then_get_records :
  (demo_get_records 2 0 (demo_trace (demo_trace cache_empty).2).2).1
  = Ok [mkRecord (AList demo_entries); mkRecord (AList demo_entries)].
Proof. vm_compute. reflexivity. Qed.

Example demo_index_after_reset :
  (allocate_index "index" cache_reset).1 = Some 2.
Proof. vm_compute. reflexivity. Qed.


(** Counter at 5, limit 3, offset 1: the keys asked for are those of the
    indices 4 and 3. *)
Lemma get_raw_records_candidates_witness :
  store cache_counter !! "index" = Some (CInt 5) ∧ 1 ≤ 5 ∧
  calls (demo_get_raw_records 3 1 cache_counter).2
    = calls cache_counter ++
      [CallGet "index";
       CallGetMulti (pretty <$> candidate_indices 3 1 5) "record_"] ∧
  length (candidate_indices 3 1 5) = Z.to_nat (Z.min 3 5 - 1) ∧
  (Z.min 3 5 ≤ 1 → candidate_indices 3 1 5 = []) ∧
  ∀ j : nat, (j < length (candidate_indices 3 1 5))%nat →
    candidate_indices 3 1 5 !! j = Some (5 - (1 + Z.of_nat j)).
Proof.
  split; [reflexivity|]. split; [lia|].
  apply (get_raw_records_candidates wire_nonempty "index" "record_" 3 1 5
           cache_counter); [reflexivity|lia].
Defined.

Example demo_candidates : candidate_indices 3 1 5 = [4; 3].
Proof. reflexivity. Qed.

(** Three calls of [trace] on the empty cache. *)
Lemma traces_indices_witness :
  store cache_empty !! "index" = None ∧
  (trace_indexed wire_dumps fst snd demo_modules ["gone"; "m"] ["__name__"]
                 "index" "record_" cache_empty).1 = Some 1 ∧
  (demo_traces 3 cache_empty).1 = Some <$> seqZ 1 (Z.of_nat 3).
Proof.
  split; [reflexivity|].
  apply (traces_indices wire_dumps fst snd demo_modules ["gone"; "m"]
           ["__name__"] "index" "record_" 3 cache_empty).
  reflexivity.
Defined.

Example demo_traces_eq :
  (demo_traces 3 cache_empty).1 = [Some 1; Some 2; Some 3].
Proof. vm_compute. reflexivity. Qed.

(** Two stored records, read back latest first. *)
Lemma get_records_latest_first_witness :
  let snaps := λ i : Z, if decide (i = 1) then snapshot_ab else snapshot_c in
  store cache_two !! "index" = Some (CInt 2) ∧
  (demo_get_records 2 0 cache_two).1 = Ok (snaps <$> reverse (seqZ 1 2)) ∧
  length (snaps <$> reverse (seqZ 1 2)) = Z.to_nat 2.
Proof.
  intros snaps. split; [reflexivity|].
  apply (get_records_latest_first wire_dumps wire_loads wire_nonempty
           "index" "record_" wire_loads_dumps 2 snaps cache_two);
    [reflexivity|].
  intros i Hi. assert (i = 1 ∨ i = 2) as [-> | ->] by lia;
    (split; [reflexivity|vm_compute; reflexivity]).
Defined.

Example demo_get_records_eq :
  (demo_get_records 2 0 cache_two).1 = Ok [snapshot_c; snapshot_ab].
Proof. vm_compute. reflexivity. Qed.

(** The record of index 1 evicted: the call raises, and the record of
    index 2, which is present, is not returned. *)
Lemma get_raw_records_missing_witness :
  store cache_evicted !! "index" = Some (CInt 2) ∧ 2 ≠ 0 ∧
  ((∃ i, i ∈ candidate_indices 2 0 2 ∧
         store cache_evicted !! record_key "record_" i = None) →
     (demo_get_raw_records 2 0 cache_evicted).1 = Raise KeyError) ∧
  ((∀ i, i ∈ candidate_indices 2 0 2 →
         is_Some (store cache_evicted !! record_key "record_" i)) →
     ∃ vs, (demo_get_raw_records 2 0 cache_evicted).1 = Ok vs ∧
           Forall2 (λ i v, store cache_evicted !! record_key "record_" i = Some v)
                   (candidate_indices 2 0 2) vs).
Proof.
  split; [reflexivity|]. split; [lia|].
  apply (get_raw_records_missing wire_nonempty "index" "record_" 2 0 2
           cache_evicted); [reflexivity|lia].
Defined.

(** C5 as stated fails on the code: with the record of index 1 evicted and
    that of index 2 present, [get_raw_records] returns no list at all, so the
    value of the present candidate is not returned. *)
Lemma get_raw_records_partial_counterexample :
  2 ∈ candidate_indices 2 0 2 ∧
  store cache_evicted !! record_key "record_" 2
    = Some (CText (EncodeJSON wire_dumps snapshot_c)) ∧
  store cache_evicted !! record_key "record_" 1 = None ∧
  (demo_get_raw_records 2 0 cache_evicted).1 = Raise KeyError ∧
  ¬ ∃ vs, (demo_get_raw_records 2 0 cache_evicted).1 = Ok vs.
Proof.
  split; [by left|]. split; [reflexivity|]. split; [reflexivity|].
  split; [vm_compute; reflexivity|]. intros [vs Hvs]. vm_compute in Hvs.
  discriminate.
Qed.


(** After a reset of the counter the next index is 2 and its key is
    occupied: the new record is dropped. *)
Lemma trace_write_once_witness :
  store (allocate_index "index" cache_reset).2
    !! ("record_" +:+ str (allocate_index "index" cache_reset).1)
  = Some (CText (EncodeJSON wire_dumps snapshot_c)) ∧
  store (demo_trace cache_reset).2 !! "record_2"
  = Some (CText (EncodeJSON wire_dumps snapshot_c)).
Proof.
  split; [vm_compute; reflexivity|].
  pose proof (trace_write_once wire_dumps fst snd demo_modules ["gone"; "m"]
                ["__name__"] "index" "record_" cache_reset
                (CText (EncodeJSON wire_dumps snapshot_c))) as H.
  cbv zeta in H. destruct H as (_ & _ & _ & H); [vm_compute; reflexivity|].
  exact H.
Defined.

(** No counter: nothing to read. *)
Lemma get_raw_records_no_counter_witness :
  store cache_empty !! "index" = None ∧
  (demo_get_raw_records 100 0 cache_empty).1 = Ok [] ∧
  calls (demo_get_raw_records 100 0 cache_empty).2
    = calls cache_empty ++ [CallGet "index"] ∧
  store (demo_get_raw_records 100 0 cache_empty).2 = store cache_empty.
Proof.
  split; [reflexivity|].
  apply (get_raw_records_no_counter wire_nonempty "index" "record_" 100 0
           cache_empty).
  reflexivity.
Defined.

(** Counter at 5, limit 100, offset 2: the indices asked for run from 3
    down to 1. *)
Lemma get_raw_records_indices_positive_witness :
  store cache_counter !! "index" = Some (CInt 5) ∧ 1 ≤ 5 ∧ 0 ≤ 2 ∧
  ∃ idxs : list Z,
    calls (demo_get_raw_records 100 2 cache_counter).2
      = calls cache_counter ++
        [CallGet "index"; CallGetMulti (pretty <$> idxs) "record_"] ∧
    Forall (λ i, 5 - Z.min 100 5 + 1 ≤ i ≤ 5 - 2 ∧ 1 ≤ i) idxs.
Proof.
  split; [reflexivity|]. split; [lia|]. split; [lia|].
  apply (get_raw_records_indices_positive wire_nonempty "index" "record_"
           100 2 5 cache_counter); [reflexivity|lia|lia].
Defined.

Example demo_keys_positive :
  calls (demo_get_raw_records 100 2 cache_counter).2
  = [CallGet "index"; CallGetMulti ["3"; "2"; "1"] "record_"].
Proof. vm_compute. reflexivity. Qed.

(** * Further runs on concrete data *)

(** The interpreter of the scan example with sizes that cannot be
    negative. *)
Definition demo_modules_N : gmap string (gmap string (string * N)) :=
  {[ "m" := {[ "X" := ("Foo", 100%N); "Y" := ("Bar", 50%N);
               "__name__" := ("str", 40%N) ]} ]}.

(** A cache that lost its counter and kept the record of index 1. *)
Definition cache_lost : memcache (text := wire) :=
  mkMemcache {[ "record_1" := CText (EncodeJSON wire_dumps snapshot_ab) ]} [].

(** With two records stored, limit 2 and offset 1 give one value. *)
Lemma get_raw_records_at_most_limit_witness :
  (demo_get_raw_records 2 1 cache_two).1
    = Ok [CText (EncodeJSON wire_dumps snapshot_ab)] ∧
  (length [CText (EncodeJSON wire_dumps snapshot_ab)] ≤ Z.to_nat (2 - 1))%nat ∧
  (0 ≤ 1 →
   (length [CText (EncodeJSON wire_dumps snapshot_ab)] ≤ Z.to_nat 2)%nat).
Proof.
  split; [vm_compute; reflexivity|].
  apply (get_raw_records_at_most_limit wire_nonempty "index" "record_" 2 1
           cache_two).
  vm_compute. reflexivity.
Defined.

(** Counter at 5 and nothing stored: offset 7 is past the limit 3. *)
Lemma get_raw_records_empty_page_witness :
  store cache_counter !! "index" = Some (CInt 5) ∧ Z.min 3 5 ≤ 7 ∧
  (demo_get_raw_records 3 7 cache_counter).1 = Ok [].
Proof.
  split; [reflexivity|]. split; [lia|].
  apply (get_raw_records_empty_page wire_nonempty "index" "record_" 3 7 5
           cache_counter); [reflexivity|lia].
Defined.

(** With two records stored, offset 1 drops the latest one. *)
Lemma get_raw_records_offset_drops_witness :
  0 ≤ 1 ∧
  (demo_get_raw_records 2 0 cache_two).1
    = Ok [CText (EncodeJSON wire_dumps snapshot_c);
          CText (EncodeJSON wire_dumps snapshot_ab)] ∧
  (demo_get_raw_records 2 1 cache_two).1
    = Ok (drop (Z.to_nat 1)
            [CText (EncodeJSON wire_dumps snapshot_c);
             CText (EncodeJSON wire_dumps snapshot_ab)]).
Proof.
  split; [lia|]. split; [vm_compute; reflexivity|].
  apply (get_raw_records_offset_drops wire_nonempty "index" "record_" 2 1
           cache_two); [lia|vm_compute; reflexivity].
Defined.

(** A third [trace] leaves the record of index 1 alone. *)
Lemma trace_frame_witness :
  "record_1" ≠ "index" ∧
  "record_1" ≠ "record_" +:+ str (allocate_index "index" cache_two).1 ∧
  store (demo_trace cache_two).2 !! "record_1" = store cache_two !! "record_1".
Proof.
  assert ("record_1" ≠ "index") as H1 by done.
  assert ("record_1" ≠ "record_" +:+ str (allocate_index "index" cache_two).1)
    as H2 by (vm_compute; discriminate).
  split; [exact H1|]. split; [exact H2|].
  exact (trace_frame wire_dumps fst snd demo_modules ["gone"; "m"]
           ["__name__"] "index" "record_" cache_two "record_1" H1 H2).
Defined.

(** After a reset of the counter the old record of index 2 stays. *)
Lemma trace_keeps_records_witness :
  "record_2" ≠ "index" ∧
  store cache_reset !! "record_2"
    = Some (CText (EncodeJSON wire_dumps snapshot_c)) ∧
  store (demo_trace cache_reset).2 !! "record_2"
    = Some (CText (EncodeJSON wire_dumps snapshot_c)).
Proof.
  assert ("record_2" ≠ "index") as H1 by done.
  split; [exact H1|]. split; [reflexivity|].
  apply (trace_keeps_records wire_dumps fst snd demo_modules ["gone"; "m"]
           ["__name__"] "index" "record_" cache_reset "record_2");
    [exact H1|reflexivity].
Defined.

(** The record of the scan example is well formed. *)
Lemma trace_record_valid_witness :
  (∀ o : string * N, 0 ≤ Z.of_N o.2) ∧
  valid_snapshot
    (mkRecord (AList (trace_entries fst (λ o : string * N, Z.of_N o.2)
                        demo_modules_N ["gone"; "m"] ["__name__"]))) = true.
Proof.
  assert (∀ o : string * N, 0 ≤ Z.of_N o.2) as H by (intros o; lia).
  split; [exact H|].
  exact (trace_record_valid fst (λ o : string * N, Z.of_N o.2)
           demo_modules_N ["gone"; "m"] ["__name__"] H).
Defined.

(** The names visited in the module of the scan example. *)
Lemma obj_keys_unique_witness :
  let d : gmap string (string * Z) :=
    {[ "X" := ("Foo", 100); "Y" := ("Bar", 50); "__name__" := ("str", 40) ]} in
  StronglySorted (λ a b, String.ltb a b = true) ["X"; "Y"] ∧
  list_to_set ["X"; "Y"] = dom d ∖ list_to_set (C := gset string) ["__name__"] ∧
  obj_keys ["__name__"] d = ["X"; "Y"].
Proof.
  intros d.
  assert (StronglySorted (λ a b, String.ltb a b = true) ["X"; "Y"]) as H1
    by (repeat constructor).
  assert (list_to_set ["X"; "Y"]
          = dom d ∖ list_to_set (C := gset string) ["__name__"]) as H2
    by (vm_compute; reflexivity).
  split; [exact H1|]. split; [exact H2|].
  exact (obj_keys_unique ["__name__"] d ["X"; "Y"] H1 H2).
Defined.

(** The counter lost, the record of index 1 kept: the next [trace] is
    dropped and the old record is what is read. *)
Lemma trace_after_counter_loss_witness :
  store cache_lost !! "index" = None ∧
  record_key "record_" 1 ≠ "index" ∧
  store cache_lost !! record_key "record_" 1
    = Some (CText (EncodeJSON wire_dumps snapshot_ab)) ∧
  (demo_get_raw_records 1 0 (demo_trace cache_lost).2).1
    = Ok [CText (EncodeJSON wire_dumps snapshot_ab)].
Proof.
  assert (record_key "record_" 1 ≠ "index") as H1 by (vm_compute; discriminate).
  split; [reflexivity|]. split; [exact H1|]. split; [reflexivity|].
  apply (trace_after_counter_loss wire_dumps wire_nonempty fst snd
           demo_modules ["gone"; "m"] ["__name__"] "index" "record_"
           cache_lost (CText (EncodeJSON wire_dumps snapshot_ab)));
    [reflexivity|exact H1|reflexivity].
Defined.



